(** * A shallow embedding of [controller.py] (the cascaded quadrotor controller)

    Number model.  The program computes on IEEE-754 binary64 values.  They are
    idealised here as exact real numbers ([R]): rounding and overflow are not
    modelled.  What is kept of IEEE arithmetic is the part the control laws can
    actually reach from finite inputs, namely the special values a division by
    zero produces under numpy ([x / 0.] is [inf], [-inf] or [nan], with a
    warning and no exception) and the way they propagate through [+], [*] and
    [np.clip].  Such values live in [xreal]. *)

From Stdlib Require Import Reals Lra Lia List ZArith.
From Stdlib Require Import Machin.
Import ListNotations.

Open Scope R_scope.

(** ** Extended reals: finite values and the IEEE special values *)

Module XReal.

Inductive xreal : Type :=
| Fin (r : R)
| PInf
| NInf
| NaN.

(** [a / b] on finite operands, numpy semantics.  A zero divisor is taken as
    [+0.]: the sign of a zero is not part of the model. *)
Definition div (a b : R) : xreal :=
  if Req_dec_T b 0 then
    if Req_dec_T a 0 then NaN
    else if Rlt_dec 0 a then PInf else NInf
  else Fin (a / b).

(** An infinity of the given sign ([true] is positive). *)
Definition inf (positive : bool) : xreal := if positive then PInf else NInf.

(** Infinity times a finite value: [inf * 0.] is [nan]. *)
Definition mul_inf (positive : bool) (r : R) : xreal :=
  if Req_dec_T r 0 then NaN
  else if Rlt_dec 0 r then inf positive else inf (negb positive).

Definition mul (x y : xreal) : xreal :=
  match x, y with
  | NaN, _ | _, NaN => NaN
  | Fin a, Fin b => Fin (a * b)
  | PInf, Fin b | Fin b, PInf => mul_inf true b
  | NInf, Fin b | Fin b, NInf => mul_inf false b
  | PInf, PInf | NInf, NInf => PInf
  | PInf, NInf | NInf, PInf => NInf
  end.

Definition add (x y : xreal) : xreal :=
  match x, y with
  | NaN, _ | _, NaN => NaN
  | Fin a, Fin b => Fin (a + b)
  | PInf, NInf | NInf, PInf => NaN
  | PInf, _ | _, PInf => PInf
  | NInf, _ | _, NInf => NInf
  end.

(** [np.clip(c, lo, hi)] is [minimum(maximum(c, lo), hi)]; [nan] goes through
    both unchanged. *)
Definition clip (c : xreal) (lo hi : R) : xreal :=
  match c with
  | Fin r => Fin (Rmin (Rmax r lo) hi)
  | PInf => Fin hi
  | NInf => Fin (Rmin lo hi)
  | NaN => NaN
  end.

End XReal.

Import XReal.

(** ** Vectors and matrices (numpy arrays of fixed shape) *)

Definition vec2 : Type := (R * R)%type.
Definition vec3 : Type := (R * R * R)%type.
Definition xvec2 : Type := (xreal * xreal)%type.
Definition xvec3 : Type := (xreal * xreal * xreal)%type.

(** A 3x3 array, read as [m i j] for [m[i, j]]. *)
Definition mat3 : Type := nat -> nat -> R.

Definition vsub (a b : vec3) : vec3 :=
  let '(a0, a1, a2) := a in
  let '(b0, b1, b2) := b in
  (a0 - b0, a1 - b1, a2 - b2).

Definition vscale (a : vec3) (k : R) : vec3 :=
  let '(a0, a1, a2) := a in (a0 * k, a1 * k, a2 * k).

(** elementwise [a / k] for a scalar [k] that may be zero *)
Definition vdiv (a : vec3) (k : R) : xvec3 :=
  let '(a0, a1, a2) := a in (div a0 k, div a1 k, div a2 k).

Definition xvadd (a : xvec3) (b : vec3) : xvec3 :=
  let '(a0, a1, a2) := a in
  let '(b0, b1, b2) := b in
  (add a0 (Fin b0), add a1 (Fin b1), add a2 (Fin b2)).

Definition vfin (a : vec3) : xvec3 :=
  let '(a0, a1, a2) := a in (Fin a0, Fin a1, Fin a2).

(** [np.multiply]: elementwise product *)
Definition vmul (a b : vec3) : vec3 :=
  let '(a0, a1, a2) := a in
  let '(b0, b1, b2) := b in
  (a0 * b0, a1 * b1, a2 * b2).

(** [np.linalg.norm] of a 1-D array: the Euclidean norm *)
Definition norm (a : vec3) : R :=
  let '(a0, a1, a2) := a in sqrt (a0 * a0 + a1 * a1 + a2 * a2).

(** ** Module constants *)

Definition DRONE_MASS_KG : R := 0.5.
Definition GRAVITY : R := -9.81.
Definition MOI : vec3 := (0.005, 0.005, 0.01).
Definition MAX_THRUST : R := 10.0.
Definition MAX_TORQUE : R := 1.0.

(** ** The controller object: its gains, fixed at construction *)

Record NonlinearController : Type := mkController {
  z_k_p : R;
  z_k_d : R;
  x_k_p : R;
  x_k_d : R;
  y_k_p : R;
  y_k_d : R;
  k_p_roll : R;
  k_p_pitch : R;
  k_p_yaw : R;
  k_p_p : R;
  k_p_q : R;
  k_p_r : R;
  max_roll_rad : R;
  max_pitch_rad : R
}.

(** [NonlinearController()] with every keyword argument at its default *)
Definition default_controller : NonlinearController :=
  mkController 20.0 6.0 0.25 0.25 0.25 0.25 4.0 4.0 5.0 27.0 27.0 10.0 1.0 1.0.

(** ** Python sequences *)

(** [l[i]] on a Python list: a negative index counts from the end, an index
    outside [-len, len) raises [IndexError] ([None]). *)
Definition py_index {A : Type} (l : list A) (i : Z) : option A :=
  let n := Z.of_nat (length l) in
  if ((i <? - n)%Z || (n <=? i)%Z)%bool then None
  else nth_error l (Z.to_nat (if (i <? 0)%Z then i + n else i)).

(** The scan of [np.argmin]: the first index holding the least value.
    [best] is the least value seen so far, found at [besti]; [i] is the index
    of the head of the remaining list. *)
Fixpoint argmin_from (best : R) (besti i : nat) (l : list R) : nat :=
  match l with
  | [] => besti
  | x :: l' =>
      if Rlt_dec x best then argmin_from x i (S i) l'
      else argmin_from best besti (S i) l'
  end.

(** [np.argmin] raises [ValueError] on an empty array. *)
Definition argmin (l : list R) : option nat :=
  match l with
  | [] => None
  | x :: l' => Some (argmin_from x 0 1 l')
  end.

(** Exceptions are the only effect: an option monad. *)
Notation "x <- c ;; k" := (match c with Some x => k | None => None end)
  (at level 61, c at next level, right associativity).

(** ** The control laws *)

Section Controller.

(** [frame_utils.euler2RM(roll, pitch, yaw)]: the rotation matrix of an
    attitude, an imported helper. *)
Variable euler2RM : R -> R -> R -> mat3.

Variable self : NonlinearController.

(** [trajectory_control]: the commanded (position, velocity, yaw) at
    [current_time].  [None] is an uncaught [ValueError] or [IndexError]. *)
Definition trajectory_control
    (position_trajectory : list vec3) (yaw_trajectory time_trajectory : list R)
    (current_time : R) : option (xvec3 * xvec3 * R) :=
  n <- argmin (map (fun t => Rabs (t - current_time)) time_trajectory) ;;
  let ind_min := Z.of_nat n in
  time_ref <- py_index time_trajectory ind_min ;;
  bracket <-
    (if Rlt_dec current_time time_ref then
       position0 <- py_index position_trajectory (ind_min - 1) ;;
       position1 <- py_index position_trajectory ind_min ;;
       time0 <- py_index time_trajectory (ind_min - 1) ;;
       time1 <- py_index time_trajectory ind_min ;;
       yaw_cmd <- py_index yaw_trajectory (ind_min - 1) ;;
       Some (position0, position1, time0, time1, yaw_cmd)
     else
       yaw_cmd <- py_index yaw_trajectory ind_min ;;
       if (ind_min >=? Z.of_nat (length position_trajectory) - 1)%Z then
         position0 <- py_index position_trajectory ind_min ;;
         position1 <- py_index position_trajectory ind_min ;;
         Some (position0, position1, 0.0, 1.0, yaw_cmd)
       else
         position0 <- py_index position_trajectory ind_min ;;
         position1 <- py_index position_trajectory (ind_min + 1) ;;
         time0 <- py_index time_trajectory ind_min ;;
         time1 <- py_index time_trajectory (ind_min + 1) ;;
         Some (position0, position1, time0, time1, yaw_cmd)) ;;
  let '(position0, position1, time0, time1, yaw_cmd) := bracket in
  let position_cmd :=
    xvadd (vdiv (vscale (vsub position1 position0) (current_time - time0))
                (time1 - time0))
          position0 in
  let velocity_cmd := vdiv (vsub position1 position0) (time1 - time0) in
  Some (position_cmd, velocity_cmd, yaw_cmd).

(** [lateral_position_control]: horizontal acceleration command. *)
Definition lateral_position_control
    (local_position_cmd local_velocity_cmd local_position local_velocity : vec2)
    (acceleration_ff : vec2) : vec2 :=
  let '(x_cmd, y_cmd) := local_position_cmd in
  let '(x_dot_cmd, y_dot_cmd) := local_velocity_cmd in
  let '(x, y) := local_position in
  let '(x_dot, y_dot) := local_velocity in
  let '(x_dot_dot_acc, y_dot_dot_acc) := acceleration_ff in
  let x_dot_err := x_dot_cmd - x_dot in
  let x_err := x_cmd - x in
  let x_dot_dot := x_k_p self * x_err + x_k_d self * x_dot_err + x_dot_dot_acc in
  let y_dot_err := y_dot_cmd - y_dot in
  let y_err := y_cmd - y in
  let y_dot_dot := x_k_p self * y_err + y_k_d self * y_dot_err + y_dot_dot_acc in
  (- x_dot_dot, - y_dot_dot).

(** [altitude_control]: thrust command. *)
Definition altitude_control
    (altitude_cmd vertical_velocity_cmd altitude vertical_velocity : R)
    (attitude : vec3) (acceleration_ff : R) : xreal :=
  let '(roll, pitch, yaw) := attitude in
  let rot_mat := euler2RM roll pitch yaw in
  let z_err := altitude_cmd - altitude in
  let z_err_dot := vertical_velocity_cmd - vertical_velocity in
  let b_z := rot_mat 2%nat 2%nat in
  let p_term := z_k_p self * z_err in
  let d_term := z_k_d self * z_err_dot in
  let u_1_bar := p_term + d_term + acceleration_ff in
  let c := div (u_1_bar - GRAVITY) b_z in
  let thrust := clip c 0.0 MAX_THRUST in
  thrust.

(** [roll_pitch_controller]: roll-rate and pitch-rate commands. *)
Definition roll_pitch_controller
    (acceleration_cmd : vec2) (attitude : vec3) (thrust_cmd : R) : xvec2 :=
  let '(b_x_c, b_y_c) := acceleration_cmd in
  let '(roll, pitch, yaw) := attitude in
  let rot_mat := euler2RM roll pitch yaw in
  let b_x_err := b_x_c - rot_mat 0%nat 2%nat in
  let b_x_p_term := k_p_roll self * b_x_err in
  let b_y_err := b_y_c - rot_mat 1%nat 2%nat in
  let b_y_p_term := k_p_pitch self * b_y_err in
  let m00 := div (rot_mat 1%nat 0%nat) (rot_mat 2%nat 2%nat) in
  let m01 := div (- rot_mat 0%nat 0%nat) (rot_mat 2%nat 2%nat) in
  let m10 := div (rot_mat 1%nat 1%nat) (rot_mat 2%nat 2%nat) in
  let m11 := div (- rot_mat 0%nat 1%nat) (rot_mat 2%nat 2%nat) in
  let p_c := add (mul m00 (Fin b_x_p_term)) (mul m01 (Fin b_y_p_term)) in
  let q_c := add (mul m10 (Fin b_x_p_term)) (mul m11 (Fin b_y_p_term)) in
  let p_c :=
    if Rgt_dec roll (max_roll_rad self) then Fin 0.0
    else if Rlt_dec roll (- max_roll_rad self) then Fin 0.0
    else p_c in
  let q_c :=
    if Rgt_dec pitch (max_pitch_rad self) then Fin 0.0
    else if Rlt_dec pitch (- max_pitch_rad self) then Fin 0.0
    else q_c in
  (p_c, q_c).

(** The moment before the torque limit: [np.multiply(MOI, [u_bar_p, u_bar_q,
    u_bar_r])]. *)
Definition raw_moment (body_rate_cmd body_rate : vec3) : vec3 :=
  let '(p_c, q_c, r_c) := body_rate_cmd in
  let '(p_actual, q_actual, r_actual) := body_rate in
  let p_err := p_c - p_actual in
  let u_bar_p := k_p_p self * p_err in
  let q_err := q_c - q_actual in
  let u_bar_q := k_p_q self * q_err in
  let r_err := r_c - r_actual in
  let u_bar_r := k_p_r self * r_err in
  vmul MOI (u_bar_p, u_bar_q, u_bar_r).

(** [body_rate_control]: moment commands.  The division is by a norm that
    exceeds [MAX_TORQUE], hence by a positive number. *)
Definition body_rate_control (body_rate_cmd body_rate : vec3) : vec3 :=
  let moment_cmd := raw_moment body_rate_cmd body_rate in
  if Rgt_dec (norm moment_cmd) MAX_TORQUE then
    let '(m0, m1, m2) := vscale moment_cmd MAX_TORQUE in
    (m0 / norm moment_cmd, m1 / norm moment_cmd, m2 / norm moment_cmd)
  else moment_cmd.

(** The yaw error after the single-step wrap. *)
Definition wrapped_yaw_err (yaw_cmd yaw : R) : R :=
  let yaw_err := yaw_cmd - yaw in
  if Rgt_dec yaw_err PI then yaw_err - 2.0 * PI
  else if Rlt_dec yaw_err (- PI) then yaw_err + 2.0 * PI
  else yaw_err.

(** [yaw_control]: target yaw rate. *)
Definition yaw_control (yaw_cmd yaw : R) : R :=
  let yaw_err := wrapped_yaw_err yaw_cmd yaw in
  let r_c := k_p_yaw self * yaw_err in
  r_c.

End Controller.

(** Modelled from the spec: [frame_utils.euler2RM] is imported by
    [controller.py] and is not part of it.  The body-to-NED rotation of the
    Euler angles, roll about x, pitch about y, yaw about z, composed as
    [Rz(yaw) * Ry(pitch) * Rx(roll)]. *)
Definition euler2RM_model (roll pitch yaw : R) : mat3 :=
  fun i j =>
    match i, j with
    | 0%nat, 0%nat => cos yaw * cos pitch
    | 0%nat, 1%nat => cos yaw * sin pitch * sin roll - sin yaw * cos roll
    | 0%nat, 2%nat => cos yaw * sin pitch * cos roll + sin yaw * sin roll
    | 1%nat, 0%nat => sin yaw * cos pitch
    | 1%nat, 1%nat => sin yaw * sin pitch * sin roll + cos yaw * cos roll
    | 1%nat, 2%nat => sin yaw * sin pitch * cos roll - cos yaw * sin roll
    | 2%nat, 0%nat => - sin pitch
    | 2%nat, 1%nat => cos pitch * sin roll
    | 2%nat, 2%nat => cos pitch * cos roll
    | _, _ => 0
    end.

(** ** Specification-side vocabulary *)

(** elementwise quotient by a non-zero scalar *)
Definition vquot (a : vec3) (k : R) : vec3 :=
  let '(a0, a1, a2) := a in (a0 / k, a1 / k, a2 / k).

Definition vadd (a b : vec3) : vec3 :=
  let '(a0, a1, a2) := a in
  let '(b0, b1, b2) := b in
  (a0 + b0, a1 + b1, a2 + b2).


(** strictly increasing timestamps *)
Fixpoint strictly_increasing (l : list R) : Prop :=
  match l with
  | [] => True
  | t :: l' =>
      match l' with
      | [] => True
      | t' :: _ => t < t' /\ strictly_increasing l'
      end
  end.




(** ** Sample inputs *)

(** A controller built with [x_k_p=1.0, y_k_p=2.0] and the other gains at
    their defaults. *)
Definition uneven_lateral_gains : NonlinearController :=
  mkController 20.0 6.0 1.0 0.25 2.0 0.25 4.0 4.0 5.0 27.0 27.0 10.0 1.0 1.0.


Definition leg_yaws : list R := [0; 1].
Definition leg_times : list R := [0; 1].

(** A controller built with [max_roll_rad=-1.0, max_pitch_rad=-1.0] and the
    gains at their defaults. *)
Definition negative_angle_limits : NonlinearController :=
  mkController 20.0 6.0 0.25 0.25 0.25 0.25 4.0 4.0 5.0 27.0 27.0 10.0 (-1.0) (-1.0).

(** A three-waypoint trajectory whose last two timestamps coincide. *)
Definition stall_positions : list vec3 := [(0, 0, 0); (1, 2, 3); (1, 5, 2)].
Definition stall_yaws : list R := [0; 1; 2].
Definition stall_times : list R := [0; 1; 1].

(** ** More specification-side vocabulary *)

(** a finite number, as opposed to an infinity or [nan] *)
Definition finite (x : xreal) : Prop := exists r, x = Fin r.

Definition xvec3_nan : xvec3 := (NaN, NaN, NaN).

(** no component is a finite number *)
Definition nowhere_finite (v : xvec3) : Prop :=
  let '(v0, v1, v2) := v in ~ finite v0 /\ ~ finite v1 /\ ~ finite v2.

(** The lateral law with each axis on its own gains, as the constructor's
    parameter names suggest: the east axis uses [y_k_p]. *)
Definition lateral_per_axis (self : NonlinearController)
    (local_position_cmd local_velocity_cmd local_position local_velocity : vec2)
    (acceleration_ff : vec2) : vec2 :=
  let '(x_cmd, y_cmd) := local_position_cmd in
  let '(x_dot_cmd, y_dot_cmd) := local_velocity_cmd in
  let '(x, y) := local_position in
  let '(x_dot, y_dot) := local_velocity in
  let '(ff_north, ff_east) := acceleration_ff in
  (- (x_k_p self * (x_cmd - x) + x_k_d self * (x_dot_cmd - x_dot) + ff_north),
   - (y_k_p self * (y_cmd - y) + y_k_d self * (y_dot_cmd - y_dot) + ff_east)).

(** The roll-rate and pitch-rate of the attitude law before the angle limits,
    in real arithmetic, for a non-zero [R22]. *)
Definition tilt_rates (self : NonlinearController) (rot_mat : mat3)
    (acceleration_cmd : vec2) : vec2 :=
  let '(b_x_c, b_y_c) := acceleration_cmd in
  let b_x_p_term := k_p_roll self * (b_x_c - rot_mat 0%nat 2%nat) in
  let b_y_p_term := k_p_pitch self * (b_y_c - rot_mat 1%nat 2%nat) in
  ((rot_mat 1%nat 0%nat * b_x_p_term - rot_mat 0%nat 0%nat * b_y_p_term)
   / rot_mat 2%nat 2%nat,
   (rot_mat 1%nat 1%nat * b_x_p_term - rot_mat 0%nat 1%nat * b_y_p_term)
   / rot_mat 2%nat 2%nat).

(** ** Tactics *)

(** decide the real comparisons a definition branches on *)
Ltac rdec :=
  repeat match goal with
         | |- context [Rlt_dec ?a ?b] => destruct (Rlt_dec a b); try lra
         | |- context [Rgt_dec ?a ?b] => destruct (Rgt_dec a b); try lra
         | |- context [Req_dec_T ?a ?b] => destruct (Req_dec_T a b); try lra
         end.

(** ** Basic facts on the number model *)

Lemma div_nonzero (a b : R) : b <> 0 -> div a b = Fin (a / b).
Proof. intros Hb. unfold div. destruct (Req_dec_T b 0); [contradiction | reflexivity]. Qed.

Lemma div_zero_zero : div 0 0 = NaN.
Proof. unfold div. rdec; reflexivity. Qed.



Lemma Rabs_gt_cases (x m : R) : Rabs x > m <-> x > m \/ x < - m.
Proof.
  unfold Rabs. destruct (Rcase_abs x); lra.
Qed.

(** ** Altitude control *)

Lemma euler2RM_model_level : euler2RM_model 0 0 0 2%nat 2%nat = 1.
Proof. simpl. rewrite cos_0. lra. Qed.

Lemma euler2RM_model_on_side : euler2RM_model (PI / 2) 0 0 2%nat 2%nat = 0.
Proof. simpl. rewrite cos_PI2. lra. Qed.

(** The thrust is the clipped quotient of the net commanded acceleration by
    [b_z], whatever [b_z] is. *)
Lemma altitude_control_unfold euler2RM self ac vc a v roll pitch yaw ff :
  altitude_control euler2RM self ac vc a v (roll, pitch, yaw) ff =
  clip (div (z_k_p self * (ac - a) + z_k_d self * (vc - v) + ff - GRAVITY)
            (euler2RM roll pitch yaw 2%nat 2%nat))
       0 MAX_THRUST.
Proof.
  unfold altitude_control.
  replace 0.0 with 0 by lra. reflexivity.
Qed.






(** C3: with [b_z <> 0] the thrust is
    [clip((z_k_p*z_err + z_k_d*z_err_dot + acceleration_ff - GRAVITY) / b_z, 0,
    MAX_THRUST)]; hovering level ([b_z = 1], zero errors, no feed-forward) the
    thrust is exactly 9.81, inside [[0, 10]]. *)
Theorem altitude_control_formula euler2RM self :
  (forall ac vc a v roll pitch yaw ff,
      euler2RM roll pitch yaw 2%nat 2%nat <> 0 ->
      altitude_control euler2RM self ac vc a v (roll, pitch, yaw) ff =
      Fin (Rmin (Rmax ((z_k_p self * (ac - a) + z_k_d self * (vc - v) + ff
                        - GRAVITY) / euler2RM roll pitch yaw 2%nat 2%nat) 0)
                MAX_THRUST))
  /\ (euler2RM 0 0 0 2%nat 2%nat = 1 ->
      forall a v,
        altitude_control euler2RM self a v a v (0, 0, 0) 0 = Fin 9.81
        /\ GRAVITY = -9.81 /\ 0 <= 9.81 <= 10 /\ MAX_THRUST = 10).
Proof.
  split.
  - intros ac vc a v roll pitch yaw ff Hb.
    rewrite altitude_control_unfold, div_nonzero by exact Hb. reflexivity.
  - intros Hb a v.
    rewrite altitude_control_unfold, Hb, div_nonzero by lra.
    unfold GRAVITY, MAX_THRUST; simpl.
    repeat split; try lra.
    f_equal.
    replace ((z_k_p self * (a - a) + z_k_d self * (v - v) + 0 - -9.81) / 1)
      with 9.81 by (field_simplify; lra).
    unfold Rmin, Rmax.
    destruct (Rle_dec 9.81 0); destruct (Rle_dec _ 10.0); lra.
Qed.

Lemma altitude_control_formula_witness :
  altitude_control euler2RM_model default_controller 1 0 0 0 (0, 0, 0) 0
  = Fin (Rmin (Rmax ((20.0 * (1 - 0) + 6.0 * (0 - 0) + 0 - GRAVITY)
                     / euler2RM_model 0 0 0 2%nat 2%nat) 0) MAX_THRUST)
  /\ altitude_control euler2RM_model default_controller 3 0 3 0 (0, 0, 0) 0
     = Fin 9.81.
Proof.
  split.
  - apply (proj1 (altitude_control_formula euler2RM_model default_controller)
             1 0 0 0 0 0 0 0).
    rewrite euler2RM_model_level. lra.
  - apply (proj2 (altitude_control_formula euler2RM_model default_controller)
             euler2RM_model_level 3 0).
Defined.

(** ** Lateral position control *)

(** What the code computes on each axis: the east axis takes its proportional
    gain from [x_k_p]. *)
Lemma lateral_position_control_unfold self x_cmd y_cmd x_dot_cmd y_dot_cmd
    x y x_dot y_dot ff_north ff_east :
  lateral_position_control self (x_cmd, y_cmd) (x_dot_cmd, y_dot_cmd) (x, y)
    (x_dot, y_dot) (ff_north, ff_east)
  = (- (x_k_p self * (x_cmd - x) + x_k_d self * (x_dot_cmd - x_dot) + ff_north),
     - (x_k_p self * (y_cmd - y) + y_k_d self * (y_dot_cmd - y_dot) + ff_east)).
Proof. reflexivity. Qed.

(** C7 on the code: one metre east of the target with [x_k_p = 1] and
    [y_k_p = 2], the east command is [-1] (the north gain applied), and not
    the [-(y_k_p * y_err + y_k_d * y_dot_err + ff_east) = -2] of the claim. *)
Theorem lateral_position_control_east_uses_x_gain :
  let out := lateral_position_control uneven_lateral_gains
               (0, 1) (0, 0) (0, 0) (0, 0) (0, 0) in
  snd out = -1
  /\ snd out <> - (y_k_p uneven_lateral_gains * (1 - 0)
                   + y_k_d uneven_lateral_gains * (0 - 0) + 0).
Proof.
  cbv zeta. rewrite lateral_position_control_unfold. simpl. split; lra.
Qed.

(** ** Roll and pitch control *)

(** C8: a roll beyond [max_roll_rad] in absolute value forces the roll-rate
    command to 0, and a pitch beyond [max_pitch_rad] forces the pitch-rate
    command to 0, whatever the commanded acceleration. *)
Theorem roll_pitch_controller_angle_limit
    euler2RM self acceleration_cmd roll pitch yaw thrust_cmd :
  (Rabs roll > max_roll_rad self ->
   fst (roll_pitch_controller euler2RM self acceleration_cmd
          (roll, pitch, yaw) thrust_cmd) = Fin 0)
  /\ (Rabs pitch > max_pitch_rad self ->
      snd (roll_pitch_controller euler2RM self acceleration_cmd
             (roll, pitch, yaw) thrust_cmd) = Fin 0).
Proof.
  destruct acceleration_cmd as [b_x_c b_y_c].
  unfold roll_pitch_controller. cbv zeta. simpl fst. simpl snd.
  replace 0.0 with 0 by lra.
  split; intros H; apply Rabs_gt_cases in H.
  - destruct (Rgt_dec roll (max_roll_rad self)); [reflexivity |].
    destruct (Rlt_dec roll (- max_roll_rad self)); [reflexivity | lra].
  - destruct (Rgt_dec pitch (max_pitch_rad self)); [reflexivity |].
    destruct (Rlt_dec pitch (- max_pitch_rad self)); [reflexivity | lra].
Qed.

Lemma roll_pitch_controller_angle_limit_witness :
  fst (roll_pitch_controller euler2RM_model default_controller (3, -4)
         (2, 0, 0) 5) = Fin 0
  /\ snd (roll_pitch_controller euler2RM_model default_controller (3, -4)
            (0, -2, 0) 5) = Fin 0.
Proof.
  split.
  - apply (proj1 (roll_pitch_controller_angle_limit euler2RM_model
                    default_controller (3, -4) 2 0 0 5)).
    apply Rabs_gt_cases. simpl. left. lra.
  - apply (proj2 (roll_pitch_controller_angle_limit euler2RM_model
                    default_controller (3, -4) 0 (-2) 0 5)).
    apply Rabs_gt_cases. simpl. right. lra.
Defined.

(** C9: the commands do not depend on [thrust_cmd]. *)
Theorem roll_pitch_controller_ignores_thrust
    euler2RM self acceleration_cmd attitude thrust_cmd thrust_cmd' :
  roll_pitch_controller euler2RM self acceleration_cmd attitude thrust_cmd
  = roll_pitch_controller euler2RM self acceleration_cmd attitude thrust_cmd'.
Proof.
  destruct acceleration_cmd as [b_x_c b_y_c].
  destruct attitude as [[roll pitch] yaw].
  reflexivity.
Qed.

(** ** Body-rate control *)


Lemma norm_nonneg (a : vec3) : 0 <= norm a.
Proof. destruct a as [[a0 a1] a2]. apply sqrt_pos. Qed.




(** The two branches of the torque limit. *)
Lemma body_rate_control_within self cmd rate :
  norm (raw_moment self cmd rate) <= MAX_TORQUE ->
  body_rate_control self cmd rate = raw_moment self cmd rate.
Proof.
  intros H. unfold body_rate_control. cbv zeta.
  destruct (Rgt_dec (norm (raw_moment self cmd rate)) MAX_TORQUE); [lra |].
  reflexivity.
Qed.





(** ** Yaw control *)

(** Four digits of [pi], from the series of [atan (1/3)] and [atan (1/7)]. *)
Lemma PI_bounds : 3.1415 < PI < 3.1416.
Proof.
  destruct (PI_2_3_7_ineq 3) as [Hlo Hhi].
  unfold PI_2_3_7_tg, tg_alt, Ratan_seq in Hlo, Hhi.
  simpl in Hlo, Hhi.
  split; lra.
Qed.

Lemma wrapped_yaw_err_cases (yaw_cmd yaw : R) :
  let e := yaw_cmd - yaw in
  (e > PI /\ wrapped_yaw_err yaw_cmd yaw = e - 2 * PI)
  \/ (e < - PI /\ wrapped_yaw_err yaw_cmd yaw = e + 2 * PI)
  \/ (- PI <= e <= PI /\ wrapped_yaw_err yaw_cmd yaw = e).
Proof.
  pose proof PI_RGT_0 as Hpi.
  cbv zeta. unfold wrapped_yaw_err. cbv zeta.
  replace 2.0 with 2 by lra.
  destruct (Rgt_dec (yaw_cmd - yaw) PI) as [H1 | H1]; [left; split; [lra | reflexivity] |].
  destruct (Rlt_dec (yaw_cmd - yaw) (- PI)) as [H2 | H2];
    [right; left; split; [lra | reflexivity] |].
  right; right. split; [lra | reflexivity].
Qed.

(** C6, as stated, fails on the boundary: a raw error of exactly [-pi] is
    below neither threshold, is kept, and is not in [(-pi, pi]]. *)
Lemma wrapped_yaw_err_minus_pi :
  Rabs (- PI - 0) <= 2 * PI
  /\ wrapped_yaw_err (- PI) 0 = - PI
  /\ ~ (- PI < wrapped_yaw_err (- PI) 0 <= PI).
Proof.
  pose proof PI_RGT_0 as Hpi.
  assert (E : wrapped_yaw_err (- PI) 0 = - PI).
  { destruct (wrapped_yaw_err_cases (- PI) 0) as [[H _] | [[H _] | [_ H]]];
      [lra | lra | rewrite H; lra]. }
  split; [| split].
  - rewrite Rabs_left by lra. lra.
  - exact E.
  - rewrite E. lra.
Qed.

(** C6, amended: for a raw difference of absolute value at most [2*pi] the
    wrapped error (raw minus [2*pi] above [pi], plus [2*pi] below [-pi],
    unchanged otherwise) lies in [[-pi, pi]], and in [(-pi, pi]] unless the
    raw difference is exactly [-pi]; the rate is [k_p_yaw] times it.  The
    rate is 0 for [yaw_cmd = yaw], and [k_p_yaw * (2*pi - 6)], about
    [k_p_yaw * 0.283], for [yaw = 3], [yaw_cmd = -3]. *)
Theorem yaw_control_wrap self :
  (forall yaw_cmd yaw,
      Rabs (yaw_cmd - yaw) <= 2 * PI ->
      let e := yaw_cmd - yaw in
      let w := wrapped_yaw_err yaw_cmd yaw in
      (e > PI -> w = e - 2 * PI)
      /\ (e < - PI -> w = e + 2 * PI)
      /\ (- PI <= e <= PI -> w = e)
      /\ - PI <= w <= PI
      /\ (e <> - PI -> - PI < w)
      /\ yaw_control self yaw_cmd yaw = k_p_yaw self * w)
  /\ (forall yaw, yaw_control self yaw yaw = 0)
  /\ yaw_control self (-3.0) 3.0 = k_p_yaw self * (2 * PI - 6.0)
  /\ 0.283 < 2 * PI - 6.0 < 0.2832.
Proof.
  pose proof PI_bounds as Hpi.
  split; [| split; [| split]].
  - intros yaw_cmd yaw Habs e w.
    assert (He : - (2 * PI) <= e <= 2 * PI).
    { subst e. revert Habs. unfold Rabs.
      destruct (Rcase_abs (yaw_cmd - yaw)); lra. }
    destruct (wrapped_yaw_err_cases yaw_cmd yaw) as [[H E] | [[H E] | [H E]]];
      fold e in H, E; fold w in E;
      (repeat split; try (intros; lra); try reflexivity).
  - intros yaw. unfold yaw_control. cbv zeta.
    destruct (wrapped_yaw_err_cases yaw yaw) as [[H E] | [[H E] | [H E]]];
      [lra | lra |].
    rewrite E. ring.
  - unfold yaw_control. cbv zeta.
    destruct (wrapped_yaw_err_cases (-3.0) 3.0) as [[H E] | [[H E] | [H E]]];
      [lra | | lra].
    rewrite E. f_equal. lra.
  - lra.
Qed.

Lemma yaw_control_wrap_witness :
  - PI <= wrapped_yaw_err 1 0 <= PI
  /\ yaw_control default_controller 1 0 = 5.0 * wrapped_yaw_err 1 0.
Proof.
  pose proof PI_bounds as Hpi.
  assert (Habs : Rabs (1 - 0) <= 2 * PI).
  { rewrite Rabs_right by lra. lra. }
  destruct (proj1 (yaw_control_wrap default_controller) 1 0 Habs)
    as [_ [_ [_ [Hr [_ Hk]]]]].
  split; [exact Hr | exact Hk].
Defined.

(** ** Python indexing and [np.argmin] *)

Lemma py_index_nat {A : Type} (l : list A) (i : nat) :
  py_index l (Z.of_nat i) = nth_error l i.
Proof.
  unfold py_index.
  destruct (Z.ltb_spec (Z.of_nat i) (- Z.of_nat (length l))); [lia |].
  destruct (Z.leb_spec (Z.of_nat (length l)) (Z.of_nat i)); simpl.
  - symmetry. apply nth_error_None. lia.
  - destruct (Z.ltb_spec (Z.of_nat i) 0); [lia |].
    rewrite Nat2Z.id. reflexivity.
Qed.


(** Nothing below [best] in the rest of the array: the index is kept. *)
Lemma argmin_from_keep (l : list R) (best : R) (besti i : nat) :
  (forall w, In w l -> best <= w) -> argmin_from best besti i l = besti.
Proof.
  revert best besti i. induction l as [| x l IH]; intros best besti i H.
  - reflexivity.
  - simpl. destruct (Rlt_dec x best) as [Hx | Hx].
    + specialize (H x (or_introl eq_refl)). lra.
    + apply IH. intros w Hw. apply H. right. exact Hw.
Qed.

(** A value below [best] that is the strict minimum of the rest of the array
    is found where it is. *)
Lemma argmin_from_find (l : list R) (best : R) (besti i k : nat) (v : R) :
  nth_error l k = Some v ->
  (forall j w, j <> k -> nth_error l j = Some w -> v < w) ->
  v < best ->
  argmin_from best besti i l = (i + k)%nat.
Proof.
  revert best besti i k.
  induction l as [| x l IH]; intros best besti i k Hk Hmin Hv.
  - destruct k; discriminate.
  - destruct k as [| k]; simpl in *.
    + injection Hk as ->.
      destruct (Rlt_dec v best); [| lra].
      rewrite argmin_from_keep; [lia |].
      intros w Hw. apply In_nth_error in Hw. destruct Hw as [j Hj].
      apply Rlt_le. apply (Hmin (S j)); [lia | exact Hj].
    + assert (Hx : v < x) by (apply (Hmin 0%nat); [lia | reflexivity]).
      assert (Hmin' : forall j w, j <> k -> nth_error l j = Some w -> v < w).
      { intros j w Hj Hw. apply (Hmin (S j)); [lia | exact Hw]. }
      destruct (Rlt_dec x best).
      * rewrite (IH x i (S i) k Hk Hmin' Hx). lia.
      * rewrite (IH best besti (S i) k Hk Hmin' Hv). lia.
Qed.

(** [np.argmin] returns the index of a strict minimum. *)
Lemma argmin_strict_min (l : list R) (k : nat) (v : R) :
  nth_error l k = Some v ->
  (forall j w, j <> k -> nth_error l j = Some w -> v < w) ->
  argmin l = Some k.
Proof.
  intros Hk Hmin. destruct l as [| x l]; [destruct k; discriminate |].
  simpl. f_equal. destruct k as [| k]; simpl in Hk.
  - injection Hk as ->. apply argmin_from_keep.
    intros w Hw. apply In_nth_error in Hw. destruct Hw as [j Hj].
    apply Rlt_le. apply (Hmin (S j)); [lia | exact Hj].
  - assert (Hx : v < x) by (apply (Hmin 0%nat); [lia | reflexivity]).
    rewrite (argmin_from_find l x 0 1 k v Hk); [reflexivity | | exact Hx].
    intros j w Hj Hw. apply (Hmin (S j)); [lia | exact Hw].
Qed.

(** ** Strictly increasing timestamps *)

Lemma strictly_increasing_tail (t : R) (l : list R) :
  strictly_increasing (t :: l) -> strictly_increasing l.
Proof. destruct l; simpl; tauto. Qed.

Lemma strictly_increasing_head (t : R) (l : list R) (j : nat) (b : R) :
  strictly_increasing (t :: l) -> nth_error l j = Some b -> t < b.
Proof.
  revert t j. induction l as [| t' l IH]; intros t j Hs Hj.
  - destruct j; discriminate.
  - destruct Hs as [Hlt Hs]. destruct j as [| j]; simpl in Hj.
    + injection Hj as <-. exact Hlt.
    + apply Rlt_trans with t'; [exact Hlt | exact (IH t' j Hs Hj)].
Qed.

Lemma strictly_increasing_nth (l : list R) (i j : nat) (a b : R) :
  strictly_increasing l -> (i < j)%nat ->
  nth_error l i = Some a -> nth_error l j = Some b -> a < b.
Proof.
  revert i j. induction l as [| t l IH]; intros i j Hs Hij Hi Hj.
  - destruct i; discriminate.
  - destruct j as [| j]; [lia |]. simpl in Hj.
    destruct i as [| i]; simpl in Hi.
    + injection Hi as <-. exact (strictly_increasing_head t l j b Hs Hj).
    + apply (IH i j); [exact (strictly_increasing_tail t l Hs) | lia | exact Hi | exact Hj].
Qed.

(** Distinct indices hold distinct timestamps. *)
Lemma strictly_increasing_apart (l : list R) (i j : nat) (a b : R) :
  strictly_increasing l -> i <> j ->
  nth_error l i = Some a -> nth_error l j = Some b -> a <> b.
Proof.
  intros Hs Hij Hi Hj.
  destruct (Nat.lt_total i j) as [H | [H | H]]; [| contradiction |].
  - pose proof (strictly_increasing_nth l i j a b Hs H Hi Hj). lra.
  - pose proof (strictly_increasing_nth l j i b a Hs H Hj Hi). lra.
Qed.

(** ** Trajectory sampling *)

Lemma vdiv_nonzero (a : vec3) (k : R) : k <> 0 -> vdiv a k = vfin (vquot a k).
Proof.
  intros Hk. destruct a as [[a0 a1] a2]. unfold vdiv, vquot, vfin.
  rewrite !div_nonzero by exact Hk. reflexivity.
Qed.

Lemma xvadd_fin (a b : vec3) : xvadd (vfin a) b = vfin (vadd a b).
Proof. destruct a as [[a0 a1] a2], b as [[b0 b1] b2]. reflexivity. Qed.


(** The dummy interval [[0, 1]] with equal end positions holds the position
    and gives a zero velocity. *)
Lemma interpolation_hold (p : vec3) (t : R) :
  vadd (vquot (vscale (vsub p p) (t - 0.0)) (1.0 - 0.0)) p = p
  /\ vquot (vsub p p) (1.0 - 0.0) = (0, 0, 0).
Proof.
  destruct p as [[a0 a1] a2].
  unfold vsub, vscale, vquot, vadd.
  replace (1.0 - 0.0) with 1 by lra.
  split; (f_equal; [f_equal |]); field.
Qed.

(** The distance array of a sample time, read at an index. *)
Lemma distance_nth (time : list R) (c : R) (j : nat) (w : R) :
  nth_error (map (fun t => Rabs (t - c)) time) j = Some w ->
  exists t_j, nth_error time j = Some t_j /\ w = Rabs (t_j - c).
Proof.
  rewrite nth_error_map. destruct (nth_error time j) as [t_j |]; [| discriminate].
  simpl. intros H. injection H as <-. exists t_j. split; reflexivity.
Qed.

(** At a waypoint's own timestamp that waypoint is the closest one. *)
Lemma argmin_at_waypoint (time : list R) (i : nat) (t_i : R) :
  strictly_increasing time -> nth_error time i = Some t_i ->
  argmin (map (fun t => Rabs (t - t_i)) time) = Some i.
Proof.
  intros Hs Hi. apply argmin_strict_min with (v := 0).
  - rewrite nth_error_map, Hi. simpl. f_equal.
    rewrite Rminus_diag. apply Rabs_R0.
  - intros j w Hj Hw. apply distance_nth in Hw. destruct Hw as [t_j [Htj ->]].
    apply Rabs_pos_lt.
    pose proof (strictly_increasing_apart time j i t_j t_i Hs Hj Htj Hi). lra.
Qed.



(** The three paths through [trajectory_control], once the closest waypoint
    [n] is known. *)
Section Branches.

Variables (position_trajectory : list vec3) (yaw_trajectory time_trajectory : list R).
Variables (current_time : R) (n : nat) (time_ref : R).

Hypothesis closest :
  argmin (map (fun t => Rabs (t - current_time)) time_trajectory) = Some n.
Hypothesis closest_time : nth_error time_trajectory n = Some time_ref.

(** [current_time < time_ref]: the interval that ends at waypoint [n]. *)
Lemma trajectory_control_previous (position0 position1 : vec3) (time0 yaw_cmd : R) :
  current_time < time_ref ->
  py_index position_trajectory (Z.of_nat n - 1) = Some position0 ->
  nth_error position_trajectory n = Some position1 ->
  py_index time_trajectory (Z.of_nat n - 1) = Some time0 ->
  py_index yaw_trajectory (Z.of_nat n - 1) = Some yaw_cmd ->
  trajectory_control position_trajectory yaw_trajectory time_trajectory current_time
  = Some (xvadd (vdiv (vscale (vsub position1 position0) (current_time - time0))
                      (time_ref - time0)) position0,
          vdiv (vsub position1 position0) (time_ref - time0),
          yaw_cmd).
Proof.
  intros Hlt Hp0 Hp1 Ht0 Hy.
  unfold trajectory_control. rewrite closest. cbv zeta.
  rewrite Hp0, Ht0, Hy, !py_index_nat, closest_time, Hp1.
  destruct (Rlt_dec current_time time_ref); [reflexivity | contradiction].
Qed.

(** [current_time >= time_ref] at the last waypoint: the dummy interval. *)
Lemma trajectory_control_last (position0 : vec3) (yaw_cmd : R) :
  ~ current_time < time_ref ->
  (length position_trajectory <= S n)%nat ->
  nth_error position_trajectory n = Some position0 ->
  nth_error yaw_trajectory n = Some yaw_cmd ->
  trajectory_control position_trajectory yaw_trajectory time_trajectory current_time
  = Some (xvadd (vdiv (vscale (vsub position0 position0) (current_time - 0.0))
                      (1.0 - 0.0)) position0,
          vdiv (vsub position0 position0) (1.0 - 0.0),
          yaw_cmd).
Proof.
  intros Hge Hlen Hp0 Hy.
  unfold trajectory_control. rewrite closest. cbv zeta.
  rewrite !py_index_nat, closest_time, Hy, Hp0.
  destruct (Rlt_dec current_time time_ref); [contradiction |].
  rewrite Z.geb_leb.
  destruct (Z.leb_spec (Z.of_nat (length position_trajectory) - 1) (Z.of_nat n));
    [reflexivity | lia].
Qed.

(** [current_time >= time_ref] elsewhere: the interval that starts at
    waypoint [n]. *)
Lemma trajectory_control_next (position0 position1 : vec3) (time1 yaw_cmd : R) :
  ~ current_time < time_ref ->
  (S n < length position_trajectory)%nat ->
  nth_error position_trajectory n = Some position0 ->
  nth_error position_trajectory (S n) = Some position1 ->
  nth_error time_trajectory (S n) = Some time1 ->
  nth_error yaw_trajectory n = Some yaw_cmd ->
  trajectory_control position_trajectory yaw_trajectory time_trajectory current_time
  = Some (xvadd (vdiv (vscale (vsub position1 position0) (current_time - time_ref))
                      (time1 - time_ref)) position0,
          vdiv (vsub position1 position0) (time1 - time_ref),
          yaw_cmd).
Proof.
  intros Hge Hlen Hp0 Hp1 Ht1 Hy.
  unfold trajectory_control. rewrite closest. cbv zeta.
  replace (Z.of_nat n + 1)%Z with (Z.of_nat (S n)) by lia.
  rewrite !py_index_nat, closest_time, Hy, Hp0, Hp1, Ht1.
  destruct (Rlt_dec current_time time_ref); [contradiction |].
  rewrite Z.geb_leb.
  destruct (Z.leb_spec (Z.of_nat (length position_trajectory) - 1) (Z.of_nat n));
    [lia | reflexivity].
Qed.

End Branches.

(** An index inside a list holds a value. *)
Lemma nth_error_inside {A : Type} (l : list A) (i : nat) :
  (i < length l)%nat -> exists a, nth_error l i = Some a.
Proof.
  intros H. destruct (nth_error l i) as [a |] eqn:E; [exists a; reflexivity |].
  apply nth_error_None in E. lia.
Qed.











(** * Further properties of the control laws *)

(** ** More on [np.argmin] and indexing *)

Lemma argmin_from_bound (l : list R) (best : R) (besti i : nat) :
  (besti < i)%nat -> (argmin_from best besti i l < i + length l)%nat.
Proof.
  revert best besti i. induction l as [| x l IH]; intros best besti i H; simpl.
  - lia.
  - destruct (Rlt_dec x best).
    + specialize (IH x i (S i) ltac:(lia)). lia.
    + specialize (IH best besti (S i) ltac:(lia)). lia.
Qed.

(** The index [np.argmin] returns is inside the array. *)
Lemma argmin_in_range (l : list R) (n : nat) :
  argmin l = Some n -> (n < length l)%nat.
Proof.
  destruct l as [| x l]; [discriminate |]. simpl. intros H. injection H as <-.
  pose proof (argmin_from_bound l x 0 1 ltac:(lia)). lia.
Qed.

Lemma argmin_nonempty (l : list R) : l <> [] -> exists n, argmin l = Some n.
Proof. destruct l as [| x l]; [congruence |]. intros _. eexists. reflexivity. Qed.

(** A minimum that is strict against what comes before it is found where it
    is, also when later entries tie with it. *)
Lemma argmin_from_first (l : list R) (best : R) (besti i k : nat) (v : R) :
  nth_error l k = Some v ->
  (forall j w, (j < k)%nat -> nth_error l j = Some w -> v < w) ->
  (forall j w, (k < j)%nat -> nth_error l j = Some w -> v <= w) ->
  v < best ->
  argmin_from best besti i l = (i + k)%nat.
Proof.
  revert best besti i k.
  induction l as [| x l IH]; intros best besti i k Hk Hlo Hhi Hv.
  - destruct k; discriminate.
  - destruct k as [| k]; simpl in *.
    + injection Hk as ->.
      destruct (Rlt_dec v best); [| lra].
      rewrite argmin_from_keep; [lia |].
      intros w Hw. apply In_nth_error in Hw. destruct Hw as [j Hj].
      apply (Hhi (S j)); [lia | exact Hj].
    + assert (Hx : v < x) by (apply (Hlo 0%nat); [lia | reflexivity]).
      assert (Hlo' : forall j w, (j < k)%nat -> nth_error l j = Some w -> v < w).
      { intros j w Hj Hw. apply (Hlo (S j)); [lia | exact Hw]. }
      assert (Hhi' : forall j w, (k < j)%nat -> nth_error l j = Some w -> v <= w).
      { intros j w Hj Hw. apply (Hhi (S j)); [lia | exact Hw]. }
      destruct (Rlt_dec x best).
      * rewrite (IH x i (S i) k Hk Hlo' Hhi' Hx). lia.
      * rewrite (IH best besti (S i) k Hk Hlo' Hhi' Hv). lia.
Qed.

Lemma argmin_first_min (l : list R) (k : nat) (v : R) :
  nth_error l k = Some v ->
  (forall j w, (j < k)%nat -> nth_error l j = Some w -> v < w) ->
  (forall j w, (k < j)%nat -> nth_error l j = Some w -> v <= w) ->
  argmin l = Some k.
Proof.
  intros Hk Hlo Hhi. destruct l as [| x l]; [destruct k; discriminate |].
  simpl. f_equal. destruct k as [| k]; simpl in Hk.
  - injection Hk as ->. apply argmin_from_keep.
    intros w Hw. apply In_nth_error in Hw. destruct Hw as [j Hj].
    apply (Hhi (S j)); [lia | exact Hj].
  - assert (Hx : v < x) by (apply (Hlo 0%nat); [lia | reflexivity]).
    rewrite (argmin_from_first l x 0 1 k v Hk); [reflexivity | | | exact Hx].
    + intros j w Hj Hw. apply (Hlo (S j)); [lia | exact Hw].
    + intros j w Hj Hw. apply (Hhi (S j)); [lia | exact Hw].
Qed.

(** An index in [[-len, len)] never raises. *)
Lemma py_index_in_range {A : Type} (l : list A) (i : Z) :
  (- Z.of_nat (length l) <= i < Z.of_nat (length l))%Z ->
  exists a, py_index l i = Some a.
Proof.
  intros H. unfold py_index.
  destruct (Z.ltb_spec i (- Z.of_nat (length l))); [lia |].
  destruct (Z.leb_spec (Z.of_nat (length l)) i); [lia |]. cbn [orb].
  apply nth_error_inside.
  destruct (Z.ltb_spec i 0); lia.
Qed.

(** ** Trajectory sampling: errors and degenerate trajectories *)

(** X1: With three lists of one length the sampler raises exactly on the empty
    trajectory ([np.argmin] of an empty array); on any other it returns,
    whatever the timestamps and the sample time. *)
Theorem trajectory_control_raises_iff_empty pos yaw time current_time :
  length pos = length time -> length yaw = length time ->
  (trajectory_control pos yaw time current_time = None <-> time = []).
Proof.
  intros Hlp Hly. split.
  - intros Hnone. destruct time as [| t0 time'] eqn:Et; [reflexivity | exfalso].
    rewrite <- Et in *.
    assert (Hne : map (fun t => Rabs (t - current_time)) time <> []).
    { rewrite Et. discriminate. }
    destruct (argmin_nonempty _ Hne) as [n Hn].
    pose proof (argmin_in_range _ _ Hn) as Hr. rewrite length_map in Hr.
    destruct (nth_error_inside time n Hr) as [time_ref Href].
    destruct (Rlt_dec current_time time_ref) as [Hlt | Hge].
    + destruct (py_index_in_range pos (Z.of_nat n - 1)) as [p0 Hp0]; [lia |].
      destruct (py_index_in_range time (Z.of_nat n - 1)) as [t0' Ht0]; [lia |].
      destruct (py_index_in_range yaw (Z.of_nat n - 1)) as [y Hy]; [lia |].
      destruct (nth_error_inside pos n) as [p1 Hp1]; [lia |].
      rewrite (trajectory_control_previous pos yaw time current_time n time_ref
                 Hn Href p0 p1 t0' y Hlt Hp0 Hp1 Ht0 Hy) in Hnone.
      discriminate.
    + destruct (nth_error_inside pos n) as [p0 Hp0]; [lia |].
      destruct (nth_error_inside yaw n) as [y Hy]; [lia |].
      destruct (Nat.le_gt_cases (length pos) (S n)) as [Hlast | Hin].
      * rewrite (trajectory_control_last pos yaw time current_time n time_ref
                   Hn Href p0 y Hge Hlast Hp0 Hy) in Hnone.
        discriminate.
      * destruct (nth_error_inside pos (S n)) as [p1 Hp1]; [lia |].
        destruct (nth_error_inside time (S n)) as [t1 Ht1]; [lia |].
        rewrite (trajectory_control_next pos yaw time current_time n time_ref
                   Hn Href p0 p1 t1 y Hge Hin Hp0 Hp1 Ht1 Hy) in Hnone.
        discriminate.
  - intros ->. reflexivity.
Qed.

Lemma trajectory_control_raises_iff_empty_witness :
  trajectory_control [] [] [] 3 = None
  /\ trajectory_control stall_positions stall_yaws stall_times 3 <> None.
Proof.
  split.
  - apply (proj2 (trajectory_control_raises_iff_empty [] [] [] 3
                    eq_refl eq_refl)).
    reflexivity.
  - intros H.
    apply (proj1 (trajectory_control_raises_iff_empty stall_positions
                    stall_yaws stall_times 3 eq_refl eq_refl)) in H.
    discriminate H.
Defined.

(** X2: A position list shorter than the timestamp list raises ([IndexError])
    when the sample time is the timestamp of a waypoint without position. *)
Theorem trajectory_control_missing_position pos yaw time i t_i :
  strictly_increasing time -> nth_error time i = Some t_i ->
  (length pos <= i)%nat ->
  trajectory_control pos yaw time t_i = None.
Proof.
  intros Hs Hti Hlen. unfold trajectory_control.
  rewrite (argmin_at_waypoint time i t_i Hs Hti). cbv zeta.
  rewrite !py_index_nat, Hti.
  destruct (Rlt_dec t_i t_i); [lra |].
  destruct (nth_error yaw i); [| reflexivity].
  rewrite Z.geb_leb.
  destruct (Z.leb_spec (Z.of_nat (length pos) - 1) (Z.of_nat i)); [| lia].
  assert (E : nth_error pos i = None) by (apply nth_error_None; exact Hlen).
  rewrite E. reflexivity.
Qed.

Lemma trajectory_control_missing_position_witness :
  trajectory_control [(0, 0, 0)] leg_yaws leg_times 1 = None.
Proof.
  apply (trajectory_control_missing_position [(0, 0, 0)] leg_yaws leg_times 1 1).
  - simpl. split; [lra | exact I].
  - reflexivity.
  - simpl. lia.
Defined.

Lemma div_zero_divisor_not_finite (a : R) : ~ finite (div a 0).
Proof.
  unfold div. intros [r Hr]. revert Hr. rdec; discriminate.
Qed.

Lemma vdiv_zero_divisor (a : vec3) : nowhere_finite (vdiv a 0).
Proof.
  destruct a as [[a0 a1] a2]. unfold vdiv, nowhere_finite.
  repeat split; apply div_zero_divisor_not_finite.
Qed.

(** A zero displacement scaled over an empty interval is [nan] everywhere. *)
Lemma interpolation_zero_interval (p0 p1 : vec3) (t : R) :
  xvadd (vdiv (vscale (vsub p1 p0) (t - t)) (t - t)) p0 = xvec3_nan.
Proof.
  destruct p0 as [[a0 a1] a2], p1 as [[b0 b1] b2].
  unfold vsub, vscale, vdiv, xvadd, xvec3_nan.
  rewrite !Rminus_diag, !Rmult_0_r, div_zero_zero. reflexivity.
Qed.

(** X3: Sampling at a timestamp that the next waypoint repeats divides by a zero
    interval: the position command is [nan] in every component and no
    component of the velocity command is finite.  No exception is raised. *)
Theorem trajectory_control_duplicate_timestamp pos yaw time n c :
  length pos = length time -> length yaw = length time ->
  nth_error time n = Some c -> nth_error time (S n) = Some c ->
  (forall j w, (j < n)%nat -> nth_error time j = Some w -> w <> c) ->
  exists velocity_cmd yaw_cmd,
    trajectory_control pos yaw time c = Some (xvec3_nan, velocity_cmd, yaw_cmd)
    /\ nowhere_finite velocity_cmd
    /\ nth_error yaw n = Some yaw_cmd.
Proof.
  intros Hlp Hly Hn HSn Hbefore.
  assert (Hr : (S n < length time)%nat) by (apply nth_error_Some; congruence).
  destruct (nth_error_inside pos n) as [p0 Hp0]; [lia |].
  destruct (nth_error_inside pos (S n)) as [p1 Hp1]; [lia |].
  destruct (nth_error_inside yaw n) as [y Hy]; [lia |].
  assert (Harg : argmin (map (fun t => Rabs (t - c)) time) = Some n).
  { apply argmin_first_min with (v := 0).
    - rewrite nth_error_map, Hn. simpl. f_equal.
      rewrite Rminus_diag. apply Rabs_R0.
    - intros j w Hj Hw. apply distance_nth in Hw. destruct Hw as [t_j [Htj ->]].
      apply Rabs_pos_lt. pose proof (Hbefore j t_j Hj Htj). lra.
    - intros j w _ Hw. apply distance_nth in Hw. destruct Hw as [t_j [_ ->]].
      apply Rabs_pos. }
  exists (vdiv (vsub p1 p0) (c - c)), y.
  rewrite (trajectory_control_next pos yaw time c n c Harg Hn p0 p1 c y);
    try assumption; [| lra | lia].
  rewrite interpolation_zero_interval.
  split; [reflexivity | split; [| exact Hy]].
  rewrite Rminus_diag. apply vdiv_zero_divisor.
Qed.

Lemma trajectory_control_duplicate_timestamp_witness :
  exists velocity_cmd yaw_cmd,
    trajectory_control stall_positions stall_yaws stall_times 1
    = Some (xvec3_nan, velocity_cmd, yaw_cmd)
    /\ nowhere_finite velocity_cmd
    /\ nth_error stall_yaws 1 = Some yaw_cmd.
Proof.
  apply (trajectory_control_duplicate_timestamp stall_positions stall_yaws
           stall_times 1 1 eq_refl eq_refl eq_refl eq_refl).
  intros j w Hj Hw.
  destruct j as [| j]; [| lia].
  simpl in Hw. injection Hw as <-. lra.
Defined.

(** X4: A trajectory of a single waypoint: from its timestamp on, the waypoint is
    held with zero velocity; before it, index [-1] is the waypoint itself,
    the interval is empty and both commands are [nan] throughout. *)
Theorem trajectory_control_single_waypoint p y t0 current_time :
  (t0 <= current_time ->
   trajectory_control [p] [y] [t0] current_time
   = Some (vfin p, vfin (0, 0, 0), y))
  /\ (current_time < t0 ->
      trajectory_control [p] [y] [t0] current_time
      = Some (xvec3_nan, xvec3_nan, y)).
Proof.
  assert (Harg : argmin (map (fun t => Rabs (t - current_time)) [t0]) = Some 0%nat)
    by reflexivity.
  split; intros H.
  - rewrite (trajectory_control_last [p] [y] [t0] current_time 0 t0 Harg
               eq_refl p y); [| lra | simpl; lia | reflexivity | reflexivity].
    rewrite !vdiv_nonzero by lra. rewrite xvadd_fin.
    destruct (interpolation_hold p current_time) as [-> ->]. reflexivity.
  - rewrite (trajectory_control_previous [p] [y] [t0] current_time 0 t0 Harg
               eq_refl p p t0 y H); try reflexivity.
    destruct p as [[a0 a1] a2].
    unfold vsub, vscale, vdiv, xvadd, xvec3_nan.
    rewrite !Rminus_diag, !Rmult_0_l, div_zero_zero. reflexivity.
Qed.

Lemma trajectory_control_single_waypoint_witness :
  trajectory_control [(1, 2, 3)] [0.5] [10] 12
  = Some (vfin (1, 2, 3), vfin (0, 0, 0), 0.5)
  /\ trajectory_control [(1, 2, 3)] [0.5] [10] 4
     = Some (xvec3_nan, xvec3_nan, 0.5).
Proof.
  split.
  - apply (proj1 (trajectory_control_single_waypoint (1, 2, 3) 0.5 10 12)). lra.
  - apply (proj2 (trajectory_control_single_waypoint (1, 2, 3) 0.5 10 4)). lra.
Defined.

(** ** Trajectory sampling: inside a segment *)





(** ** Lateral position control: the gains it reads *)

(** X6: The code agrees with the law that gives each axis its own gains, on every
    input, exactly when the controller was built with [x_k_p = y_k_p] (as
    with the defaults). *)
Theorem lateral_position_control_per_axis_iff self :
  (forall cmd vel_cmd pos vel ff,
      lateral_position_control self cmd vel_cmd pos vel ff
      = lateral_per_axis self cmd vel_cmd pos vel ff)
  <-> x_k_p self = y_k_p self.
Proof.
  split.
  - intros H. specialize (H (0, 1) (0, 0) (0, 0) (0, 0) (0, 0)).
    rewrite lateral_position_control_unfold in H. unfold lateral_per_axis in H.
    injection H as H. lra.
  - intros E [x_cmd y_cmd] [x_dot_cmd y_dot_cmd] [x y] [x_dot y_dot] [ffn ffe].
    rewrite lateral_position_control_unfold. unfold lateral_per_axis.
    rewrite E. reflexivity.
Qed.

Lemma lateral_position_control_per_axis_iff_witness :
  lateral_position_control default_controller (1, 2) (0, 0) (0, 0) (0, 0) (0, 0)
  = lateral_per_axis default_controller (1, 2) (0, 0) (0, 0) (0, 0) (0, 0).
Proof.
  apply (proj2 (lateral_position_control_per_axis_iff default_controller)).
  reflexivity.
Defined.

(** ** Altitude control: saturation and the degenerate attitude *)





(** X9: Upside down ([b_z < 0]) the thrust is cut to zero as long as the
    commanded acceleration is not below [GRAVITY]: the quotient is not
    positive and the lower clip applies. *)
Theorem altitude_control_inverted euler2RM self ac vc a v roll pitch yaw ff :
  euler2RM roll pitch yaw 2%nat 2%nat < 0 ->
  GRAVITY <= z_k_p self * (ac - a) + z_k_d self * (vc - v) + ff ->
  altitude_control euler2RM self ac vc a v (roll, pitch, yaw) ff = Fin 0.
Proof.
  intros Hb Hu. rewrite altitude_control_unfold, div_nonzero by lra.
  simpl. f_equal.
  set (num := z_k_p self * (ac - a) + z_k_d self * (vc - v) + ff - GRAVITY).
  set (b_z := euler2RM roll pitch yaw 2%nat 2%nat) in *.
  assert (Hq : num / b_z <= 0).
  { unfold Rdiv. assert (/ b_z < 0) by (apply Rinv_lt_0_compat; exact Hb).
    assert (0 <= num) by (unfold num; lra). nra. }
  unfold Rmin, Rmax, MAX_THRUST.
  destruct (Rle_dec (num / b_z) 0); destruct (Rle_dec _ 10.0); lra.
Qed.

Lemma altitude_control_inverted_witness :
  altitude_control euler2RM_model default_controller 0 0 0 0 (PI, 0, 0) 0
  = Fin 0.
Proof.
  apply (altitude_control_inverted euler2RM_model default_controller
           0 0 0 0 PI 0 0 0).
  - simpl. rewrite cos_0, cos_PI. lra.
  - unfold GRAVITY; simpl; lra.
Defined.




(** ** Roll and pitch control: inside the angle limits *)

Lemma mul_not_finite (x : xreal) (b : R) : ~ finite x -> ~ finite (mul x (Fin b)).
Proof.
  intros Hx [r Hr]. destruct x as [a | | |]; simpl in Hr.
  - apply Hx. exists a. reflexivity.
  - unfold mul_inf, inf in Hr. revert Hr. rdec; discriminate.
  - unfold mul_inf, inf in Hr. revert Hr. rdec; discriminate.
  - discriminate.
Qed.

Lemma add_not_finite (x y : xreal) : ~ finite x -> ~ finite y -> ~ finite (add x y).
Proof.
  intros Hx Hy [r Hr].
  destruct x as [a | | |]; [apply Hx; exists a; reflexivity | | |];
    (destruct y as [b | | |]; [apply Hy; exists b; reflexivity | | |]);
    discriminate.
Qed.

(** The two commands as the code computes them, before and after the limits. *)
Lemma roll_pitch_controller_unfold euler2RM self b_x_c b_y_c roll pitch yaw t :
  let rot_mat := euler2RM roll pitch yaw in
  let b_x_p_term := k_p_roll self * (b_x_c - rot_mat 0%nat 2%nat) in
  let b_y_p_term := k_p_pitch self * (b_y_c - rot_mat 1%nat 2%nat) in
  let b_z := rot_mat 2%nat 2%nat in
  roll_pitch_controller euler2RM self (b_x_c, b_y_c) (roll, pitch, yaw) t
  = (if Rgt_dec roll (max_roll_rad self) then Fin 0
     else if Rlt_dec roll (- max_roll_rad self) then Fin 0
     else add (mul (div (rot_mat 1%nat 0%nat) b_z) (Fin b_x_p_term))
              (mul (div (- rot_mat 0%nat 0%nat) b_z) (Fin b_y_p_term)),
     if Rgt_dec pitch (max_pitch_rad self) then Fin 0
     else if Rlt_dec pitch (- max_pitch_rad self) then Fin 0
     else add (mul (div (rot_mat 1%nat 1%nat) b_z) (Fin b_x_p_term))
              (mul (div (- rot_mat 0%nat 1%nat) b_z) (Fin b_y_p_term))).
Proof.
  cbv zeta. unfold roll_pitch_controller. cbv zeta.
  replace 0.0 with 0 by lra. reflexivity.
Qed.

(** X11: With a non-zero [R22] and the angle inside its limit (the limit itself
    included: the tests are strict), each command is the finite value of the
    attitude law. *)
Theorem roll_pitch_controller_within_limits
    euler2RM self acceleration_cmd roll pitch yaw thrust_cmd :
  euler2RM roll pitch yaw 2%nat 2%nat <> 0 ->
  (- max_roll_rad self <= roll <= max_roll_rad self ->
   fst (roll_pitch_controller euler2RM self acceleration_cmd
          (roll, pitch, yaw) thrust_cmd)
   = Fin (fst (tilt_rates self (euler2RM roll pitch yaw) acceleration_cmd)))
  /\ (- max_pitch_rad self <= pitch <= max_pitch_rad self ->
      snd (roll_pitch_controller euler2RM self acceleration_cmd
             (roll, pitch, yaw) thrust_cmd)
      = Fin (snd (tilt_rates self (euler2RM roll pitch yaw) acceleration_cmd))).
Proof.
  intros Hb. destruct acceleration_cmd as [b_x_c b_y_c].
  rewrite roll_pitch_controller_unfold. cbv zeta.
  rewrite !div_nonzero by exact Hb. unfold tilt_rates. simpl.
  split; intros H.
  - destruct (Rgt_dec roll (max_roll_rad self)); [lra |].
    destruct (Rlt_dec roll (- max_roll_rad self)); [lra |].
    f_equal. field. exact Hb.
  - destruct (Rgt_dec pitch (max_pitch_rad self)); [lra |].
    destruct (Rlt_dec pitch (- max_pitch_rad self)); [lra |].
    f_equal. field. exact Hb.
Qed.

Lemma roll_pitch_controller_within_limits_witness :
  fst (roll_pitch_controller euler2RM_model default_controller (3, -4)
         (1, 0, 0) 5)
  = Fin (fst (tilt_rates default_controller (euler2RM_model 1 0 0) (3, -4))).
Proof.
  apply (proj1 (roll_pitch_controller_within_limits euler2RM_model
                  default_controller (3, -4) 1 0 0 5
                  ltac:(simpl; rewrite cos_0;
                        pose proof (cos_gt_0 1) as Hc;
                        pose proof PI_bounds as Hpi;
                        assert (0 < cos 1) by (apply Hc; lra); lra))).
  simpl. lra.
Defined.

(** X12: With [R22 = 0] a command that the angle limit does not zero is an
    infinity or [nan], never a finite rate. *)
Theorem roll_pitch_controller_zero_bz
    euler2RM self acceleration_cmd roll pitch yaw thrust_cmd :
  euler2RM roll pitch yaw 2%nat 2%nat = 0 ->
  (- max_roll_rad self <= roll <= max_roll_rad self ->
   ~ finite (fst (roll_pitch_controller euler2RM self acceleration_cmd
                    (roll, pitch, yaw) thrust_cmd)))
  /\ (- max_pitch_rad self <= pitch <= max_pitch_rad self ->
      ~ finite (snd (roll_pitch_controller euler2RM self acceleration_cmd
                       (roll, pitch, yaw) thrust_cmd))).
Proof.
  intros Hb. destruct acceleration_cmd as [b_x_c b_y_c].
  rewrite roll_pitch_controller_unfold. cbv zeta. rewrite Hb. simpl.
  split; intros H.
  - destruct (Rgt_dec roll (max_roll_rad self)); [lra |].
    destruct (Rlt_dec roll (- max_roll_rad self)); [lra |].
    apply add_not_finite; apply mul_not_finite, div_zero_divisor_not_finite.
  - destruct (Rgt_dec pitch (max_pitch_rad self)); [lra |].
    destruct (Rlt_dec pitch (- max_pitch_rad self)); [lra |].
    apply add_not_finite; apply mul_not_finite, div_zero_divisor_not_finite.
Qed.

Lemma roll_pitch_controller_zero_bz_witness :
  ~ finite (snd (roll_pitch_controller euler2RM_model default_controller
                   (3, -4) (PI / 2, 0, 0) 5)).
Proof.
  apply (proj2 (roll_pitch_controller_zero_bz euler2RM_model default_controller
                  (3, -4) (PI / 2) 0 0 5 euler2RM_model_on_side)).
  simpl. lra.
Defined.

(** X13: When the commanded acceleration already equals the tilt terms [R02] and
    [R12] and [R22] is not zero, both rate commands are zero. *)
Theorem roll_pitch_controller_zero_error euler2RM self roll pitch yaw thrust_cmd :
  euler2RM roll pitch yaw 2%nat 2%nat <> 0 ->
  roll_pitch_controller euler2RM self
    (euler2RM roll pitch yaw 0%nat 2%nat, euler2RM roll pitch yaw 1%nat 2%nat)
    (roll, pitch, yaw) thrust_cmd
  = (Fin 0, Fin 0).
Proof.
  intros Hb. rewrite roll_pitch_controller_unfold. cbv zeta.
  rewrite !div_nonzero by exact Hb. simpl.
  f_equal.
  - destruct (Rgt_dec roll (max_roll_rad self)); [reflexivity |].
    destruct (Rlt_dec roll (- max_roll_rad self)); [reflexivity |].
    f_equal. field. exact Hb.
  - destruct (Rgt_dec pitch (max_pitch_rad self)); [reflexivity |].
    destruct (Rlt_dec pitch (- max_pitch_rad self)); [reflexivity |].
    f_equal. field. exact Hb.
Qed.

Lemma roll_pitch_controller_zero_error_witness :
  roll_pitch_controller euler2RM_model default_controller
    (euler2RM_model 0 0 0 0%nat 2%nat, euler2RM_model 0 0 0 1%nat 2%nat)
    (0, 0, 0) 5
  = (Fin 0, Fin 0).
Proof.
  apply (roll_pitch_controller_zero_error euler2RM_model default_controller
           0 0 0 5).
  rewrite euler2RM_model_level. lra.
Defined.

(** X14: A controller built with a negative maximum angle zeroes the matching
    rate command at every attitude. *)
Theorem roll_pitch_controller_negative_limit
    euler2RM self acceleration_cmd roll pitch yaw thrust_cmd :
  (max_roll_rad self < 0 ->
   fst (roll_pitch_controller euler2RM self acceleration_cmd
          (roll, pitch, yaw) thrust_cmd) = Fin 0)
  /\ (max_pitch_rad self < 0 ->
      snd (roll_pitch_controller euler2RM self acceleration_cmd
             (roll, pitch, yaw) thrust_cmd) = Fin 0).
Proof.
  destruct acceleration_cmd as [b_x_c b_y_c].
  rewrite roll_pitch_controller_unfold. cbv zeta. simpl.
  split; intros H.
  - destruct (Rgt_dec roll (max_roll_rad self)); [reflexivity |].
    destruct (Rlt_dec roll (- max_roll_rad self)); [reflexivity | lra].
  - destruct (Rgt_dec pitch (max_pitch_rad self)); [reflexivity |].
    destruct (Rlt_dec pitch (- max_pitch_rad self)); [reflexivity | lra].
Qed.

Lemma roll_pitch_controller_negative_limit_witness :
  fst (roll_pitch_controller euler2RM_model negative_angle_limits (3, -4)
         (0, 0, 0) 5) = Fin 0
  /\ snd (roll_pitch_controller euler2RM_model negative_angle_limits (3, -4)
            (0, 0, 0) 5) = Fin 0.
Proof.
  split.
  - apply (proj1 (roll_pitch_controller_negative_limit euler2RM_model
                    negative_angle_limits (3, -4) 0 0 0 5)).
    simpl. lra.
  - apply (proj2 (roll_pitch_controller_negative_limit euler2RM_model
                    negative_angle_limits (3, -4) 0 0 0 5)).
    simpl. lra.
Defined.

(** ** Body-rate control: what the torque limit keeps *)

Lemma norm_zero : norm (0, 0, 0) = 0.
Proof.
  unfold norm. replace (0 * 0 + 0 * 0 + 0 * 0) with 0 by lra. apply sqrt_0.
Qed.



(** X15: With no rate error the moment command is zero. *)
Theorem body_rate_control_zero_error self body_rate :
  body_rate_control self body_rate body_rate = (0, 0, 0).
Proof.
  assert (E : raw_moment self body_rate body_rate = (0, 0, 0)).
  { destruct body_rate as [[p q] r]. unfold raw_moment, MOI, vmul.
    f_equal; [f_equal |]; ring. }
  rewrite body_rate_control_within; rewrite E; [reflexivity |].
  rewrite norm_zero. unfold MAX_TORQUE. lra.
Qed.



(** X18: The command depends on the two rates through their difference only. *)
Theorem body_rate_control_error_only self body_rate_cmd body_rate :
  body_rate_control self body_rate_cmd body_rate
  = body_rate_control self (vsub body_rate_cmd body_rate) (0, 0, 0).
Proof.
  assert (E : raw_moment self body_rate_cmd body_rate
              = raw_moment self (vsub body_rate_cmd body_rate) (0, 0, 0)).
  { destruct body_rate_cmd as [[pc qc] rc], body_rate as [[p q] r].
    unfold raw_moment, vsub, MOI, vmul. f_equal; [f_equal |]; ring. }
  unfold body_rate_control. cbv zeta. rewrite E. reflexivity.
Qed.

(** ** Yaw control: the reach of the single-step wrap *)

Lemma Rabs_le_iff (x m : R) : Rabs x <= m <-> - m <= x <= m.
Proof. unfold Rabs. destruct (Rcase_abs x); lra. Qed.

(** X19: The wrapped error is in [[-pi, pi]] exactly when the raw difference is
    within one and a half turns: beyond [3*pi] one subtraction of [2*pi] is
    not enough. *)
Theorem wrapped_yaw_err_range_iff yaw_cmd yaw :
  - PI <= wrapped_yaw_err yaw_cmd yaw <= PI <-> Rabs (yaw_cmd - yaw) <= 3 * PI.
Proof.
  pose proof PI_RGT_0 as Hpi. rewrite Rabs_le_iff.
  destruct (wrapped_yaw_err_cases yaw_cmd yaw) as [[H E] | [[H E] | [H E]]];
    rewrite E; split; lra.
Qed.

Lemma wrapped_yaw_err_range_iff_witness :
  ~ (- PI <= wrapped_yaw_err 10 0 <= PI).
Proof.
  pose proof PI_bounds as Hpi. intros H.
  apply (proj1 (wrapped_yaw_err_range_iff 10 0)) in H.
  rewrite Rabs_right in H by lra. lra.
Defined.

(** X20: The wrap changes the error by a whole turn or not at all: the wrapped
    error is the same angle as the raw difference. *)
Theorem wrapped_yaw_err_same_angle yaw_cmd yaw :
  sin (wrapped_yaw_err yaw_cmd yaw) = sin (yaw_cmd - yaw)
  /\ cos (wrapped_yaw_err yaw_cmd yaw) = cos (yaw_cmd - yaw).
Proof.
  destruct (wrapped_yaw_err_cases yaw_cmd yaw) as [[_ E] | [[_ E] | [_ E]]];
    rewrite E.
  - rewrite (sin_minus (yaw_cmd - yaw) (2 * PI)),
      (cos_minus (yaw_cmd - yaw) (2 * PI)), sin_2PI, cos_2PI.
    split; ring.
  - rewrite (sin_plus (yaw_cmd - yaw) (2 * PI)),
      (cos_plus (yaw_cmd - yaw) (2 * PI)), sin_2PI, cos_2PI.
    split; ring.
  - split; reflexivity.
Qed.

(** X21: The wrap never makes the error larger. *)
Theorem wrapped_yaw_err_shorter yaw_cmd yaw :
  Rabs (wrapped_yaw_err yaw_cmd yaw) <= Rabs (yaw_cmd - yaw).
Proof.
  pose proof PI_RGT_0 as Hpi.
  destruct (wrapped_yaw_err_cases yaw_cmd yaw) as [[H E] | [[H E] | [H E]]];
    rewrite E; [| | lra].
  - rewrite (Rabs_right (yaw_cmd - yaw)) by lra. apply Rabs_le_iff. lra.
  - rewrite (Rabs_left (yaw_cmd - yaw)) by lra. apply Rabs_le_iff. lra.
Qed.

(** X22: Swapping the command and the measurement negates the yaw rate, on the
    boundaries [+pi] and [-pi] as well. *)
Theorem yaw_control_antisymmetric self yaw_cmd yaw :
  yaw_control self yaw_cmd yaw = - yaw_control self yaw yaw_cmd.
Proof.
  pose proof PI_RGT_0 as Hpi. unfold yaw_control. cbv zeta.
  destruct (wrapped_yaw_err_cases yaw_cmd yaw) as [[H E] | [[H E] | [H E]]];
    destruct (wrapped_yaw_err_cases yaw yaw_cmd) as [[H' E'] | [[H' E'] | [H' E']]];
    rewrite E, E'; try lra; ring.
Qed.

(** X23: Within one and a half turns the yaw-rate command is at most
    [|k_p_yaw| * pi] in absolute value. *)
Theorem yaw_control_rate_bound self yaw_cmd yaw :
  Rabs (yaw_cmd - yaw) <= 3 * PI ->
  Rabs (yaw_control self yaw_cmd yaw) <= Rabs (k_p_yaw self) * PI.
Proof.
  pose proof PI_RGT_0 as Hpi. intros H.
  assert (Hw : Rabs (wrapped_yaw_err yaw_cmd yaw) <= PI).
  { apply Rabs_le_iff.
    apply Rabs_le_iff in H.
    destruct (wrapped_yaw_err_cases yaw_cmd yaw) as [[H' E] | [[H' E] | [H' E]]];
      rewrite E; lra. }
  unfold yaw_control. cbv zeta. rewrite Rabs_mult.
  apply Rmult_le_compat_l; [apply Rabs_pos | exact Hw].
Qed.

Lemma yaw_control_rate_bound_witness :
  Rabs (yaw_control default_controller 9 0) <= Rabs 5.0 * PI.
Proof.
  pose proof PI_bounds as Hpi.
  apply (yaw_control_rate_bound default_controller 9 0).
  rewrite Rabs_right by lra. lra.
Defined.
